(** * go-ndbm: the gdbm compatibility shim

    A shallow embedding of [gdbm_compat.h] and [gdbm_compat_linux.c]: the
    replacement ndbm header used on distributions that ship gdbm 1.8, and the
    two error functions that the header promises but the library lacks.

    The C code is two one-line accessors over the engine's process-wide
    error variable [gdbm_errno].  They are embedded as programs of a small
    state monad whose runs can fault (on a bad dereference) and which logs
    every access to the error variable and to the fields of a [DBM]
    structure, so that "has no side effect", "ignores the handle" and "never
    dereferences the handle" become statements about runs. *)

From stdpp Require Import gmap strings list.

Local Open Scope Z_scope.

(** ** Data model ([gdbm_compat.h]) *)

(** A pointer is an address; [NULL] is address zero. *)
Abbreviation ptr := Z.

Definition NULL : ptr := 0.

(** [typedef struct { int dummy[10]; } DBM;] *)
Record DBM : Type := mkDBM { dummy : list Z }.

(** [#define DBM_INSERT 0] and [#define DBM_REPLACE 1] *)
Definition DBM_INSERT : Z := 0.
Definition DBM_REPLACE : Z := 1.

(** Modelled from the spec: the engine's [datum], whose declaration is in
    [gdbm.h].  Keys and stored values are byte strings (section 6). *)
Abbreviation datum := string.

(** The records of one open database file. *)
Abbreviation database := (gmap datum datum).

(** The part of the process state the shim and the engine work on:
    - [gdbm_errno], the engine's global error indicator.  Its declaration
      is in [gdbm.h]; following section 7 of the specification it is "a
      process-wide integer error code", of the type [dbm_error] returns, so
      that reading and returning it converts nothing;
    - [heap], the [DBM] structures that live in memory, by address;
    - [files], the records of the database open under each handle. *)
Record state : Type := mkState {
  gdbm_errno : Z;
  heap : gmap ptr DBM;
  files : gmap ptr database
}.

Definition set_errno (v : Z) (s : state) : state :=
  {| gdbm_errno := v; heap := heap s; files := files s |}.

Definition set_heap (h : gmap ptr DBM) (s : state) : state :=
  {| gdbm_errno := gdbm_errno s; heap := h; files := files s |}.

Definition set_files (f : gmap ptr database) (s : state) : state :=
  {| gdbm_errno := gdbm_errno s; heap := heap s; files := f |}.

(** The range of a C [int] on the platforms the shim targets. *)
Definition INT_MIN : Z := - 2 ^ 31.
Definition INT_MAX : Z := 2 ^ 31 - 1.

Definition is_int (v : Z) : bool := (INT_MIN <=? v) && (v <=? INT_MAX).

(** ** Memory accesses *)

Inductive event : Type :=
| RdErrno                                (* read of [gdbm_errno] *)
| WrErrno (v : Z)                        (* write of [gdbm_errno] *)
| RdField (p : ptr) (i : nat)            (* read of [p->dummy[i]] *)
| WrField (p : ptr) (i : nat) (v : Z).   (* write of [p->dummy[i]] *)

(** Does the access go through a pointer to a [DBM]? *)
Definition on_handle (e : event) : bool :=
  match e with
  | RdField _ _ | WrField _ _ _ => true
  | RdErrno | WrErrno _ => false
  end.

Definition is_write (e : event) : bool :=
  match e with
  | WrErrno _ | WrField _ _ _ => true
  | RdErrno | RdField _ _ => false
  end.

(** ** Runs *)

(** A run either returns a value in a final state, having made the listed
    accesses in order, or faults. *)
Inductive outcome (A : Type) : Type :=
| Done (a : A) (s : state) (t : list event)
| Fault.

Arguments Done {A} a s t.
Arguments Fault {A}.

Definition prog (A : Type) : Type := state → outcome A.

Definition ret {A} (a : A) : prog A := λ s, Done a s [].

Definition bind {A B} (m : prog A) (k : A → prog B) : prog B := λ s,
  match m s with
  | Done a s1 t1 =>
      match k a s1 with
      | Done b s2 t2 => Done b s2 (t1 ++ t2)
      | Fault => Fault
      end
  | Fault => Fault
  end.

#[global] Instance prog_ret : MRet prog := @ret.
#[global] Instance prog_bind : MBind prog := λ A B k m, bind m k.

(** Projections of a run. *)
Definition result {A} (o : outcome A) : option A :=
  match o with Done a _ _ => Some a | Fault => None end.

Definition final {A} (o : outcome A) : option state :=
  match o with Done _ s _ => Some s | Fault => None end.

Definition footprint {A} (o : outcome A) : list event :=
  match o with Done _ _ t => t | Fault => [] end.

Definition completes {A} (o : outcome A) : bool :=
  match o with Done _ _ _ => true | Fault => false end.

(** The same run with its final state transformed. *)
Definition map_final {A} (f : state → state) (o : outcome A) : outcome A :=
  match o with Done a s t => Done a (f s) t | Fault => Fault end.

(** ** Primitive commands *)

(** An rvalue use of [gdbm_errno]. *)
Definition load_errno : prog Z := λ s, Done (gdbm_errno s) s [RdErrno].

(** [gdbm_errno = v] *)
Definition store_errno (v : Z) : prog unit := λ s,
  Done tt (set_errno v s) [WrErrno v].

(** An rvalue use of [p->dummy[i]]: faults unless [p] points to a [DBM] and
    [i] is inside the array. *)
Definition load_field (p : ptr) (i : nat) : prog Z := λ s,
  match heap s !! p with
  | Some d =>
      match dummy d !! i with
      | Some v => Done v s [RdField p i]
      | None => Fault
      end
  | None => Fault
  end.

(** [p->dummy[i] = v] *)
Definition store_field (p : ptr) (i : nat) (v : Z) : prog unit := λ s,
  match heap s !! p with
  | Some d =>
      if decide (i < length (dummy d))%nat
      then Done tt (set_heap (<[p := mkDBM (<[i := v]> (dummy d))]> (heap s)) s)
                [WrField p i v]
      else Fault
  | None => Fault
  end.

(** ** The error functions ([gdbm_compat_linux.c]) *)

(** [void dbm_clearerr(DBM* db) { gdbm_errno = 0; }] *)
Definition dbm_clearerr (db : ptr) : prog unit := store_errno 0.

(** [int dbm_error(DBM* db) { return gdbm_errno; }] *)
Definition dbm_error (db : ptr) : prog Z := load_errno.

(** ** The engine behind the header *)

(** The records of the database open under [db].  Using a handle under
    which no database is open is an error of the caller. *)
Definition records_of (db : ptr) : prog database := λ s,
  match files s !! db with
  | Some d => Done d s []
  | None => Fault
  end.

(** Replace the records of the database open under [db]. *)
Definition put_records (db : ptr) (d : database) : prog unit := λ s,
  Done tt (set_files (<[db := d]> (files s)) s) [].

Section Engine.

(** [GDBM_ITEM_NOT_FOUND] and [GDBM_READER_CANT_DELETE] are enumerators of
    [gdbm.h], which belongs to the engine; their numeric values are left
    open. *)
Variable GDBM_ITEM_NOT_FOUND : Z.
Variable GDBM_READER_CANT_DELETE : Z.

(** The handles whose database was opened for reading only (the open flags
    of [dbm_open]). *)
Variable reader : ptr → bool.

(** [#define DBM_ITEM_NOT_FOUND GDBM_ITEM_NOT_FOUND] *)
Definition DBM_ITEM_NOT_FOUND : Z := GDBM_ITEM_NOT_FOUND.

(** Modelled from the spec: the body of [int dbm_delete(DBM* db, datum key)].
    The header only declares it; the function itself is the engine's.
    From sections 6 and 7 of the specification and the comment above
    [DBM_ITEM_NOT_FOUND]:
    - deleting a key that is not in the database fails with the general
      failure status (not with the 1 of BSD ndbm) and leaves the "item not
      found" sentinel in [gdbm_errno];
    - there are other failure causes, which give the same status and are
      told apart by [gdbm_errno] only.  The specification names none; the
      one modelled is the one the open flags of section 6 give rise to, a
      database opened for reading only, which the engine refuses to modify
      before it looks for the key.
    Where the specification is silent the model follows the engine: a
    delete on a writable database starts from a cleared [gdbm_errno], so
    that a successful delete, which removes the record and returns 0,
    leaves no error pending. *)
Definition dbm_delete (db : ptr) (key : datum) : prog Z :=
  d ← records_of db;
  if reader db
  then store_errno GDBM_READER_CANT_DELETE ;; mret (-1)
  else
    store_errno 0 ;;
    match d !! key with
    | Some _ => put_records db (delete key d) ;; mret 0
    | None => store_errno GDBM_ITEM_NOT_FOUND ;; mret (-1)
    end.

End Engine.

(** ** Callers of the error functions *)

(** One call of the shim, as a caller writes it. *)
Inductive call : Type :=
| Clearerr (db : ptr)    (* [dbm_clearerr(db);] *)
| Error (db : ptr).      (* [code = dbm_error(db);] *)

Definition is_clearerr (c : call) : bool :=
  match c with Clearerr _ => true | Error _ => false end.

(** A straight-line caller: the calls are made in order, and the codes that
    the [dbm_error] calls hand back are collected in order. *)
Fixpoint do_calls (cs : list call) : prog (list Z) :=
  match cs with
  | [] => mret []
  | Clearerr db :: cs => dbm_clearerr db ;; do_calls cs
  | Error db :: cs => v ← dbm_error db; vs ← do_calls cs; mret (v :: vs)
  end.

(** How many of the calls are [dbm_error] calls. *)
Fixpoint reads (cs : list call) : nat :=
  match cs with
  | [] => 0%nat
  | Clearerr _ :: cs => reads cs
  | Error _ :: cs => S (reads cs)
  end.

(** What the calls are expected to hand back, to leave in [gdbm_errno] and
    to access, when [gdbm_errno] holds [e] before the first of them. *)
Fixpoint codes (e : Z) (cs : list call) : list Z :=
  match cs with
  | [] => []
  | Clearerr _ :: cs => codes 0 cs
  | Error _ :: cs => e :: codes e cs
  end.

Fixpoint last_errno (e : Z) (cs : list call) : Z :=
  match cs with
  | [] => e
  | Clearerr _ :: cs => last_errno 0 cs
  | Error _ :: cs => last_errno e cs
  end.

Definition access (c : call) : event :=
  match c with Clearerr _ => WrErrno 0 | Error _ => RdErrno end.

(** ** Sample data *)

(** One record, in the database open under the handle at address 4096. *)
Definition sample_records : database := {["present" := "value"]}.

Definition sample_state : state :=
  {| gdbm_errno := 0;
     heap := {[4096 := mkDBM (replicate 10 0)]};
     files := {[4096 := sample_records]} |}.

(** The handle at address 8192 is the one opened for reading only. *)
Definition sample_reader (db : ptr) : bool := db =? 8192.


(** * Properties *)

(** ** The memory model can fault *)

Lemma load_field_dangling p i s : heap s !! p = None → load_field p i s = Fault.
Proof. intros Hp. unfold load_field. by rewrite Hp. Qed.

Lemma store_field_dangling p i v s :
  heap s !! p = None → store_field p i v s = Fault.
Proof. intros Hp. unfold store_field. by rewrite Hp. Qed.

Lemma load_field_valid p i d v s :
  heap s !! p = Some d → dummy d !! i = Some v →
  load_field p i s = Done v s [RdField p i].
Proof. intros Hp Hi. unfold load_field. by rewrite Hp, Hi. Qed.

Example null_dereference_faults :
  load_field NULL 0 (mkState 15 ∅ ∅) = Fault.
Proof. reflexivity. Qed.

(** ** Sequencing *)

Lemma seq_done {A B} (m : prog A) (k : prog B) s a s1 t1 b s2 t2 :
  m s = Done a s1 t1 → k s1 = Done b s2 t2 →
  (m ;; k) s = Done b s2 (t1 ++ t2).
Proof.
  intros Hm Hk. unfold mbind, prog_bind, bind. by rewrite Hm, Hk.
Qed.

(** ** The two accessors, run on an arbitrary state *)

Lemma dbm_clearerr_run db s :
  dbm_clearerr db s = Done tt (set_errno 0 s) [WrErrno 0].
Proof. reflexivity. Qed.

Lemma dbm_error_run db s :
  dbm_error db s = Done (gdbm_errno s) s [RdErrno].
Proof. reflexivity. Qed.

Lemma set_errno_twice v w s : set_errno v (set_errno w s) = set_errno v s.
Proof. reflexivity. Qed.

Create Rewrite HintDb shim.
#[local] Hint Rewrite dbm_clearerr_run dbm_error_run : shim.
#[local] Hint Rewrite set_errno_twice : shim.

(** Replace every call of the shim by its run. *)
Ltac run_shim := autorewrite with shim; simpl.

(** What is stored and handed back is a C [int] whenever [gdbm_errno] holds
    one. *)
Lemma dbm_error_is_int db s :
  is_int (gdbm_errno s) = true →
  from_option is_int false (result (dbm_error db s)) = true.
Proof. intros Hs. by run_shim. Qed.

Lemma dbm_clearerr_is_int db s :
  from_option (is_int ∘ gdbm_errno) false (final (dbm_clearerr db s)) = true.
Proof. reflexivity. Qed.

(** ** Clearing and reading the error indicator *)

Example dbm_error_sample : dbm_error 4096 (set_errno 15 sample_state)
  = Done 15 (set_errno 15 sample_state) [RdErrno].
Proof. reflexivity. Qed.

Example dbm_clearerr_sample :
  final (dbm_clearerr NULL (set_errno 15 sample_state)) = Some sample_state.
Proof. reflexivity. Qed.

Section ErrorAdapter.

Implicit Types (db : ptr) (s : state).

(** C1.  After "clear error", "get error" returns zero: whatever the
    handles [db] and [db'] and whatever the state (hence whatever value
    [gdbm_errno] held before), running [dbm_clearerr db] and then
    [dbm_error db'] returns 0. *)
Theorem dbm_error_after_clearerr db db' s :
  (dbm_clearerr db ;; dbm_error db') s
  = Done 0 (set_errno 0 s) [WrErrno 0; RdErrno].
Proof.
  rewrite (seq_done _ _ s tt (set_errno 0 s) [WrErrno 0]
             0 (set_errno 0 s) [RdErrno]); [done | | ].
  - apply dbm_clearerr_run.
  - apply dbm_error_run.
Qed.

(** C2.  [dbm_clearerr db] returns nothing ([tt]), leaves [gdbm_errno] at
    zero, writes [gdbm_errno] once and accesses nothing else, keeps the
    heap and the database files as they were, and does the same for any
    other handle [db']. *)
Theorem dbm_clearerr_resets_errno db db' s :
  dbm_clearerr db s
  = Done tt {| gdbm_errno := 0; heap := heap s; files := files s |}
         [WrErrno 0]
  ∧ dbm_clearerr db' s = dbm_clearerr db s.
Proof. split; by run_shim. Qed.

(** C3.  [dbm_error db] returns exactly the current value of
    [gdbm_errno], and returns the same for any other handle [db']. *)
Theorem dbm_error_returns_errno db db' s :
  result (dbm_error db s) = Some (gdbm_errno s)
  ∧ dbm_error db' s = dbm_error db s.
Proof. split; by run_shim. Qed.

(** C5.  Neither function can fail: from every state and for every
    handle both runs complete, [dbm_clearerr] with the unit value and
    [dbm_error] with some integer; neither run is a fault. *)
Theorem accessors_cannot_fail db s :
  (∃ s' t, dbm_clearerr db s = Done tt s' t)
  ∧ (∃ v s' t, dbm_error db s = Done v s' t)
  ∧ completes (dbm_clearerr db s) = true
  ∧ completes (dbm_error db s) = true.
Proof.
  run_shim. split; [by eexists _, _ | split; [by eexists _, _, _ | done]].
Qed.

(** C6.  [dbm_error] has no side effect: the state after the call is the
    state before it (error indicator, heap and files alike), and the run
    performs no write. *)
Theorem dbm_error_no_side_effect db s :
  final (dbm_error db s) = Some s
  ∧ existsb is_write (footprint (dbm_error db s)) = false.
Proof. by run_shim. Qed.

(** C7.  The shim never reads or writes the structure behind a handle:
    neither run contains an access to a [DBM] field, and both runs commute
    with replacing the whole heap by an arbitrary heap [h], so that
    nothing they return or do depends on the heap and the heap they leave
    is the heap they were given. *)
Theorem handle_contents_untouched db s (h : gmap ptr DBM) :
  existsb on_handle (footprint (dbm_clearerr db s)) = false
  ∧ existsb on_handle (footprint (dbm_error db s)) = false
  ∧ dbm_clearerr db (set_heap h s) = map_final (set_heap h) (dbm_clearerr db s)
  ∧ dbm_error db (set_heap h s) = map_final (set_heap h) (dbm_error db s).
Proof. by run_shim. Qed.

(** C8.  Both functions are total in the handle: for any pointer value,
    valid or not, the run completes, makes no access through a pointer,
    and is the run obtained with the null pointer. *)
Theorem accessors_safe_for_any_pointer db s :
  completes (dbm_clearerr db s) = true
  ∧ completes (dbm_error db s) = true
  ∧ completes (dbm_clearerr NULL s) = true
  ∧ completes (dbm_error NULL s) = true
  ∧ dbm_clearerr db s = dbm_clearerr NULL s
  ∧ dbm_error db s = dbm_error NULL s
  ∧ existsb on_handle (footprint (dbm_clearerr db s) ++ footprint (dbm_error db s))
    = false.
Proof. by run_shim. Qed.

(** C9.  [dbm_clearerr] is idempotent: two calls in a row (on any two
    handles) end in the state that one call ends in. *)
Theorem dbm_clearerr_idempotent db db' s :
  final ((dbm_clearerr db ;; dbm_clearerr db') s) = final (dbm_clearerr db s).
Proof.
  rewrite (seq_done _ _ s tt (set_errno 0 s) [WrErrno 0]
             tt (set_errno 0 s) [WrErrno 0]); [done | | ].
  - apply dbm_clearerr_run.
  - by run_shim.
Qed.

(** C10.  The result of [dbm_error] depends on [gdbm_errno] only: for any
    two handles and any two states that agree on [gdbm_errno], the two
    calls return the same value. *)
Theorem dbm_error_depends_on_errno_only db1 db2 (s1 s2 : state) :
  gdbm_errno s1 = gdbm_errno s2 →
  result (dbm_error db1 s1) = result (dbm_error db2 s2).
Proof. intros Heq. run_shim. by rewrite Heq. Qed.

End ErrorAdapter.

Lemma dbm_error_depends_on_errno_only_witness :
  gdbm_errno (mkState 15 ∅ ∅)
  = gdbm_errno (mkState 15 {[4096 := mkDBM (replicate 10 7)]} {[4096 := ∅]})
  ∧ result (dbm_error NULL (mkState 15 ∅ ∅))
    = result (dbm_error 4096
                (mkState 15 {[4096 := mkDBM (replicate 10 7)]} {[4096 := ∅]})).
Proof.
  split; [reflexivity | ].
  apply (dbm_error_depends_on_errno_only NULL 4096). reflexivity.
Defined.

(** ** Deleting a key that is not there *)

Section DeleteAbsent.

Variable GDBM_ITEM_NOT_FOUND : Z.
Variable GDBM_READER_CANT_DELETE : Z.
Variable reader : ptr → bool.

Implicit Types (db : ptr) (key : datum) (s : state) (d : database).


Lemma records_of_open db s d :
  files s !! db = Some d → records_of db s = Done d s [].
Proof. intros Hdb. unfold records_of. by rewrite Hdb. Qed.

(** Unfold a delete on a handle under which a database is open. *)
Ltac run_delete Hdb :=
  unfold dbm_delete, mbind, prog_bind, bind;
  rewrite (records_of_open _ _ _ Hdb).

Lemma dbm_delete_closed db key s :
  files s !! db = None →
  dbm_delete GDBM_ITEM_NOT_FOUND GDBM_READER_CANT_DELETE reader db key s
  = Fault.
Proof.
  intros Hdb. unfold dbm_delete, mbind, prog_bind, bind, records_of.
  by rewrite Hdb.
Qed.

Lemma dbm_delete_reader db key s d :
  files s !! db = Some d → reader db = true →
  dbm_delete GDBM_ITEM_NOT_FOUND GDBM_READER_CANT_DELETE reader db key s
  = Done (-1) (set_errno GDBM_READER_CANT_DELETE s)
         [WrErrno GDBM_READER_CANT_DELETE].
Proof. intros Hdb Hrd. run_delete Hdb. by rewrite Hrd. Qed.

Lemma dbm_delete_absent db key s d :
  files s !! db = Some d → reader db = false → d !! key = None →
  dbm_delete GDBM_ITEM_NOT_FOUND GDBM_READER_CANT_DELETE reader db key s
  = Done (-1) (set_errno GDBM_ITEM_NOT_FOUND s)
         [WrErrno 0; WrErrno GDBM_ITEM_NOT_FOUND].
Proof. intros Hdb Hrd Hkey. run_delete Hdb. by rewrite Hrd, Hkey. Qed.

Lemma dbm_delete_present db key s d v :
  files s !! db = Some d → reader db = false → d !! key = Some v →
  dbm_delete GDBM_ITEM_NOT_FOUND GDBM_READER_CANT_DELETE reader db key s
  = Done 0 (set_files (<[db := delete key d]> (files s)) (set_errno 0 s))
         [WrErrno 0].
Proof. intros Hdb Hrd Hkey. run_delete Hdb. by rewrite Hrd, Hkey. Qed.

(** The status alone does not tell the two failures apart: on a database
    opened for reading only and on a writable one, deleting an absent key
    returns the same status. *)
Lemma dbm_delete_status_shared db1 db2 key s d1 d2 :
  files s !! db1 = Some d1 → reader db1 = true →
  files s !! db2 = Some d2 → reader db2 = false → d2 !! key = None →
  result
    (dbm_delete GDBM_ITEM_NOT_FOUND GDBM_READER_CANT_DELETE reader db1 key s)
  = result
      (dbm_delete GDBM_ITEM_NOT_FOUND GDBM_READER_CANT_DELETE reader db2 key s).
Proof.
  intros Hdb1 Hrd1 Hdb2 Hrd2 Hkey.
  by rewrite (dbm_delete_reader _ _ _ _ Hdb1 Hrd1),
       (dbm_delete_absent _ _ _ _ Hdb2 Hrd2 Hkey).
Qed.


End DeleteAbsent.



Example delete_present_then_absent :
  result ((dbm_delete 15 11 sample_reader 4096 "present" ;;
           dbm_delete 15 11 sample_reader 4096 "present" ;;
           dbm_error 4096) sample_state)
  = Some (DBM_ITEM_NOT_FOUND 15).
Proof. vm_compute. reflexivity. Qed.

Example delete_present_clears_pending_error :
  result ((dbm_delete 15 11 sample_reader 4096 "present" ;; dbm_error 4096)
            (set_errno 15 sample_state))
  = Some 0.
Proof. vm_compute. reflexivity. Qed.

(** ** Straight-line callers *)

Lemma set_errno_same s : set_errno (gdbm_errno s) s = s.
Proof. by destruct s. Qed.

Lemma bind_run {A B} (m : prog A) (k : A → prog B) s a s1 t1 :
  m s = Done a s1 t1 →
  (m ≫= k) s
  = match k a s1 with
    | Done b s2 t2 => Done b s2 (t1 ++ t2)
    | Fault => Fault
    end.
Proof. intros Hm. unfold mbind, prog_bind, bind. by rewrite Hm. Qed.

Lemma mret_run {A} (a : A) s : (mret a : prog A) s = Done a s [].
Proof. reflexivity. Qed.

(** The run of a caller, in closed form. *)
Lemma do_calls_run cs s :
  do_calls cs s
  = Done (codes (gdbm_errno s) cs)
         (set_errno (last_errno (gdbm_errno s) cs) s)
         (access <$> cs).
Proof.
  revert s. induction cs as [ | [db | db] cs IH]; intros s; simpl.
  - by rewrite mret_run, set_errno_same.
  - rewrite (bind_run _ _ s _ _ _ (dbm_clearerr_run db s)), IH.
    by rewrite set_errno_twice.
  - rewrite (bind_run _ _ s _ _ _ (dbm_error_run db s)).
    rewrite (bind_run _ _ s _ _ _ (IH s)), mret_run.
    by rewrite app_nil_r.
Qed.

Lemma codes_length e cs : length (codes e cs) = reads cs.
Proof.
  revert e. induction cs as [ | [db | db] cs IH]; intros e; simpl; auto.
Qed.

Lemma codes_zero cs : codes 0 cs = replicate (reads cs) 0.
Proof.
  induction cs as [ | [db | db] cs IH]; simpl; [done | done | by rewrite IH].
Qed.

Lemma codes_app e cs1 cs2 :
  codes e (cs1 ++ cs2) = codes e cs1 ++ codes (last_errno e cs1) cs2.
Proof.
  revert e. induction cs1 as [ | [db | db] cs1 IH]; intros e; simpl;
    [done | apply IH | by rewrite IH].
Qed.

Lemma last_errno_app e cs1 cs2 :
  last_errno e (cs1 ++ cs2) = last_errno (last_errno e cs1) cs2.
Proof.
  revert e. induction cs1 as [ | [db | db] cs1 IH]; intros e; simpl; auto.
Qed.

Lemma last_errno_zero cs : last_errno 0 cs = 0.
Proof. induction cs as [ | [db | db] cs IH]; simpl; auto. Qed.

Lemma last_errno_cases e cs :
  last_errno e cs = if existsb is_clearerr cs then 0 else e.
Proof.
  induction cs as [ | [db | db] cs IH]; simpl;
    [done | apply last_errno_zero | apply IH].
Qed.

Lemma codes_errors e (dbs : list ptr) :
  codes e (Error <$> dbs) = replicate (length dbs) e
  ∧ last_errno e (Error <$> dbs) = e
  ∧ access <$> (Error <$> dbs) = replicate (length dbs) RdErrno.
Proof.
  induction dbs as [ | db dbs (IH1 & IH2 & IH3)]; csimpl; [done | ].
  by rewrite IH1, IH2, IH3.
Qed.

Lemma codes_old_or_zero e cs :
  forallb (λ v, (v =? e) || (v =? 0)) (codes e cs) = true.
Proof.
  induction cs as [ | [db | db] cs IH]; simpl; [done | | ].
  - rewrite codes_zero. induction (reads cs) as [ | n IHn]; simpl; [done | ].
    by rewrite IHn, orb_true_r.
  - by rewrite Z.eqb_refl, IH.
Qed.

Lemma codes_is_int e cs :
  is_int e = true →
  forallb is_int (codes e cs) = true ∧ is_int (last_errno e cs) = true.
Proof.
  revert e. induction cs as [ | [db | db] cs IH]; intros e He; simpl.
  - done.
  - by apply IH.
  - rewrite He. by apply IH.
Qed.

Lemma accesses_off_handle cs : existsb on_handle (access <$> cs) = false.
Proof. induction cs as [ | [db | db] cs IH]; simpl; auto. Qed.

(** X1.  Whatever calls of the two functions a caller makes, on whatever
    handles, the run completes, the heap and the database files are at the
    end what they were at the start, nothing is accessed through a handle,
    every call accesses [gdbm_errno] exactly once, and one code comes back
    per [dbm_error] call. *)
Theorem do_calls_frame cs s :
  ∃ vs s' t,
    do_calls cs s = Done vs s' t
    ∧ heap s' = heap s ∧ files s' = files s
    ∧ existsb on_handle t = false
    ∧ length t = length cs
    ∧ length vs = reads cs.
Proof.
  eexists _, _, _. split; [apply do_calls_run | ].
  repeat split.
  - apply accesses_off_handle.
  - apply length_fmap.
  - apply codes_length.
Qed.

(** X2.  Reading does not consume the error: any number of [dbm_error]
    calls in a row, on any handles, all return the value [gdbm_errno] had
    before the first, and leave the state as it was. *)
Theorem dbm_error_repeatable (dbs : list ptr) s :
  do_calls (Error <$> dbs) s
  = Done (replicate (length dbs) (gdbm_errno s)) s
         (replicate (length dbs) RdErrno).
Proof.
  rewrite do_calls_run.
  destruct (codes_errors (gdbm_errno s) dbs) as (-> & -> & ->).
  by rewrite set_errno_same.
Qed.

(** X3.  Once [dbm_clearerr] has been called, every later [dbm_error] call
    returns 0 however many calls of either function follow, the codes read
    before it are what they would be without it, and [gdbm_errno] ends at
    0. *)
Theorem do_calls_after_clearerr pre db post s :
  ∃ vs,
    result (do_calls pre s) = Some vs
    ∧ result (do_calls (pre ++ Clearerr db :: post) s)
      = Some (vs ++ replicate (reads post) 0)
    ∧ final (do_calls (pre ++ Clearerr db :: post) s) = Some (set_errno 0 s).
Proof.
  exists (codes (gdbm_errno s) pre). rewrite !do_calls_run. simpl.
  rewrite codes_app, last_errno_app. simpl.
  by rewrite codes_zero, last_errno_zero.
Qed.

(** X4.  The shim never makes up an error code: every code a caller reads
    is the value [gdbm_errno] had at the start or 0, and [gdbm_errno] ends
    at 0 if [dbm_clearerr] was called and at its initial value otherwise. *)
Theorem do_calls_no_new_code cs s :
  ∃ vs s' t,
    do_calls cs s = Done vs s' t
    ∧ forallb (λ v, (v =? gdbm_errno s) || (v =? 0)) vs = true
    ∧ gdbm_errno s' = if existsb is_clearerr cs then 0 else gdbm_errno s.
Proof.
  eexists _, _, _. split; [apply do_calls_run | ].
  split; [apply codes_old_or_zero | apply last_errno_cases].
Qed.

(** X5.  If [gdbm_errno] holds a C [int] before a sequence of calls, it
    holds one after it, and every code handed back is one. *)
Theorem do_calls_int cs s :
  is_int (gdbm_errno s) = true →
  ∃ vs s' t,
    do_calls cs s = Done vs s' t
    ∧ forallb is_int vs = true
    ∧ is_int (gdbm_errno s') = true.
Proof.
  intros Hs. eexists _, _, _. split; [apply do_calls_run | ].
  by apply codes_is_int.
Qed.

Lemma do_calls_int_witness :
  is_int (gdbm_errno (set_errno 15 sample_state)) = true
  ∧ ∃ vs s' t,
      do_calls [Error 4096; Clearerr NULL; Error 4096]
               (set_errno 15 sample_state)
      = Done vs s' t
      ∧ forallb is_int vs = true
      ∧ is_int (gdbm_errno s') = true.
Proof.
  split; [reflexivity | ].
  apply (do_calls_int [Error 4096; Clearerr NULL; Error 4096]
           (set_errno 15 sample_state)).
  reflexivity.
Defined.

(** X6.  The order of the two calls matters for the code only: reading and
    then clearing returns the pending code, clearing and then reading
    returns 0, and both orders end in the same state. *)
Theorem error_clearerr_order db db' s :
  result ((e ← dbm_error db; dbm_clearerr db' ;; mret e) s)
  = Some (gdbm_errno s)
  ∧ result ((dbm_clearerr db' ;; dbm_error db) s) = Some 0
  ∧ final ((e ← dbm_error db; dbm_clearerr db' ;; mret e) s)
    = final ((dbm_clearerr db' ;; dbm_error db) s).
Proof.
  rewrite (bind_run _ _ s _ _ _ (dbm_error_run db s)).
  rewrite (bind_run _ _ s _ _ _ (dbm_clearerr_run db' s)), mret_run.
  rewrite (bind_run _ _ s _ _ _ (dbm_clearerr_run db' s)).
  by rewrite dbm_error_run.
Qed.

(** X7.  [dbm_clearerr] forgets which error was pending: from two states
    with the same heap and the same files it ends in the same state,
    whatever [gdbm_errno] held in each and whatever the handles. *)
Theorem dbm_clearerr_forgets db1 db2 (s1 s2 : state) :
  heap s1 = heap s2 → files s1 = files s2 →
  final (dbm_clearerr db1 s1) = final (dbm_clearerr db2 s2).
Proof.
  intros Hh Hf. rewrite !dbm_clearerr_run. simpl.
  unfold set_errno. by rewrite Hh, Hf.
Qed.

Lemma dbm_clearerr_forgets_witness :
  heap (set_errno 15 sample_state) = heap sample_state
  ∧ files (set_errno 15 sample_state) = files sample_state
  ∧ final (dbm_clearerr NULL (set_errno 15 sample_state))
    = final (dbm_clearerr 4096 sample_state).
Proof.
  split; [reflexivity | split; [reflexivity | ]].
  apply (dbm_clearerr_forgets NULL 4096); reflexivity.
Defined.

Example do_calls_sample :
  do_calls [Error 4096; Error NULL; Clearerr 4096; Error 4096]
           (set_errno 15 sample_state)
  = Done [15; 15; 0] sample_state [RdErrno; RdErrno; WrErrno 0; RdErrno].
Proof. reflexivity. Qed.
